(** * EMMA: the multicast sender of [ns3-sim/emma-lte-sim.cc]

    A shallow embedding of [MulticastSender] (its [StartApplication] and
    [Send] methods), of the receive callback installed on every UE, and of
    [main], over a small model of the ns-3 event scheduler they run on.

    - [size_t] is a 64-bit unsigned integer: a [Z] with its wrap-around
      written out ([SizeT]).
    - [std::vector<char>] is a [list byte]; [buffer.size()] is its length
      as a [Z].
    - ns-3 virtual time is an integer number of nanoseconds (the default
      resolution of [ns3::Time]), taken as an unbounded [Z].
    - The simulator ([Simulator::Schedule], [Simulator::Stop],
      [Simulator::Run]) is explicit state passing over [sim]: the event
      list ordered by (timestamp, uid), the clock, the stop flag, and two
      logs: what was handed to the socket, and which events were run.
    - [Socket::Send] is a parameter: it maps the time and the bytes to the
      [int] the call returns (the number of bytes, or -1). *)

From Stdlib Require Import ZArith List Lia Bool Sorted.
From Stdlib Require Import Strings.Byte.
Import ListNotations.
Open Scope Z_scope.

(** ** [size_t] *)

Module SizeT.

Definition bits : Z := 64.
Definition modulus : Z := 2 ^ bits.

Definition wrap (z : Z) : Z := z mod modulus.

Definition add (a b : Z) : Z := wrap (a + b).
Definition sub (a b : Z) : Z := wrap (a - b).

End SizeT.

(** [buffer.size()] *)
Definition size (buffer : list byte) : Z := Z.of_nat (length buffer).

(** ** Virtual time *)

Definition Seconds (s : Z) : Z := s * 1000000000.
Definition MilliSeconds (ms : Z) : Z := ms * 1000000.

(** ** The constants of the program

    [Send] has [size_t chunk = 1024] and reschedules itself after
    [MilliSeconds(10)]; [StartApplication] schedules the first [Send] after
    [Seconds(1.0)]; [main] stops the simulator at [Seconds(5.0)].  The
    sender below takes them from a [config], and [emma] is the one the
    source has. *)

Record config : Type := Config {
  chunk      : Z;          (* size_t chunk *)
  startDelay : Z;          (* delay of the first Send, ns *)
  interval   : Z;          (* delay between a Send and the next, ns *)
  stopAt     : option Z    (* Simulator::Stop, when it is called *)
}.

Definition emma : config :=
  {| chunk := 1024;
     startDelay := Seconds 1;
     interval := MilliSeconds 10;
     stopAt := Some (Seconds 5) |}.

(** The sender alone, with no stop time: the chain of [Send] events runs
    until it ends by itself. *)
Definition unbounded (c : config) : config :=
  {| chunk := chunk c; startDelay := startDelay c;
     interval := interval c; stopAt := None |}.

(** ** Events and simulator state *)

Inductive event : Type :=
| EvStartApplication (file : option (list byte))
| EvSend (buffer : list byte) (offset : Z)
| EvStop.

Record scheduled : Type := Scheduled {
  ev_time : Z;
  ev_uid  : N;
  ev_what : event
}.

(** One call of [m_socket->Send(p)]: when, the packet ([Create<Packet>]
    from [&buffer[offset]] and [len]) and what the call returned. *)
Record transmission : Type := Transmission {
  tx_time   : Z;
  tx_offset : Z;
  tx_len    : Z;
  tx_data   : list byte;
  tx_ret    : Z
}.

Record sim : Type := Sim {
  now      : Z;
  next_uid : N;
  events   : list scheduled;          (* pending, ordered *)
  stopped  : bool;                    (* m_stop *)
  wire     : list transmission;       (* calls of Socket::Send, in order *)
  trace    : list (Z * event)         (* events run, in order *)
}.

Inductive result : Type :=
| Ok (s : sim)
| OutOfBounds.                        (* a read outside the vector *)

Inductive outcome : Type :=
| Done (s : sim)                      (* Simulator::Run returned *)
| Crashed
| OutOfFuel.

Inductive exit : Type :=
| Exit (code : Z) (s : sim)
| Abort
| Hang.

(** ** The scheduler *)

(** ns-3 orders events by timestamp, then by uid (insertion order). *)
Definition before (a b : scheduled) : bool :=
  (ev_time a <? ev_time b) ||
  ((ev_time a =? ev_time b) && (ev_uid a <? ev_uid b)%N).

Fixpoint insert_event (e : scheduled) (q : list scheduled) : list scheduled :=
  match q with
  | [] => [e]
  | h :: t => if before e h then e :: q else h :: insert_event e t
  end.

(** [Simulator::Schedule(delay, ...)] *)
Definition Schedule (delay : Z) (what : event) (s : sim) : sim :=
  {| now := now s;
     next_uid := N.succ (next_uid s);
     events := insert_event (Scheduled (now s + delay) (next_uid s) what)
                            (events s);
     stopped := stopped s;
     wire := wire s;
     trace := trace s |}.

(** [Simulator::Stop(delay)]: an event that sets the stop flag. *)
Definition Stop (delay : Z) (s : sim) : sim := Schedule delay EvStop s.

Definition initial : sim :=
  {| now := 0; next_uid := 0%N; events := []; stopped := false;
     wire := []; trace := [] |}.

(** ** The sender *)

(** The bytes [offset, offset + len) of the vector. *)
Definition slice (buffer : list byte) (offset len : Z) : list byte :=
  firstn (Z.to_nat len) (skipn (Z.to_nat offset) buffer).

(** [Packet::Packet (uint8_t const *buffer, uint32_t size)]: the size
    argument is a 32-bit unsigned integer, and [Send] passes a [size_t]. *)
Definition to_uint32 (z : Z) : Z := z mod 2 ^ 32.

(** [Create<Packet>((uint8_t* )&buffer[offset], len)]: the bytes from
    [offset] on, as many as the converted [len] says, when they are all
    inside the vector. *)
Definition Create_Packet (buffer : list byte) (offset len : Z)
  : option (list byte) :=
  let n := to_uint32 len in
  if (0 <=? offset) && (offset + n <=? size buffer)
  then Some (slice buffer offset n)
  else None.

(** [std::ifstream file(m_filename, std::ios::binary);
     std::vector<char> buffer((std::istreambuf_iterator<char>(file)), {});]
    A file that cannot be opened gives a stream with nothing to read: the
    vector is empty.  Nothing tests the stream. *)
Definition read_file (file : option (list byte)) : list byte :=
  match file with
  | Some contents => contents
  | None => []
  end.

Section Sender.

Variable cfg : config.
(** [Socket::Send]: the [int] it returns at this time for these bytes. *)
Variable socket : Z -> list byte -> Z.

(** [m_socket->Send(p)]; the value it returns is dropped. *)
Definition socket_Send (offset len : Z) (p : list byte) (s : sim) : sim :=
  {| now := now s;
     next_uid := next_uid s;
     events := events s;
     stopped := stopped s;
     wire := wire s ++ [Transmission (now s) offset len p (socket (now s) p)];
     trace := trace s |}.

(** [void Send(std::vector<char> buffer, size_t offset)] *)
Definition Send (buffer : list byte) (offset : Z) (s : sim) : result :=
  if offset <? size buffer then
    let len := Z.min (chunk cfg) (SizeT.sub (size buffer) offset) in
    match Create_Packet buffer offset len with
    | None => OutOfBounds
    | Some p =>
        let s1 := socket_Send offset len p s in
        Ok (Schedule (interval cfg) (EvSend buffer (SizeT.add offset len)) s1)
    end
  else Ok s.

(** [virtual void StartApplication()] *)
Definition StartApplication (file : option (list byte)) (s : sim) : result :=
  let buffer := read_file file in
  Ok (Schedule (startDelay cfg) (EvSend buffer 0) s).

Definition invoke (what : event) (s : sim) : result :=
  match what with
  | EvStartApplication file => StartApplication file s
  | EvSend buffer offset => Send buffer offset s
  | EvStop =>
      Ok {| now := now s; next_uid := next_uid s; events := events s;
            stopped := true; wire := wire s; trace := trace s |}
  end.

(** [ProcessOneEvent]: take the first event, move the clock to its
    timestamp, run it. *)
Definition ProcessOneEvent (e : scheduled) (rest : list scheduled) (s : sim)
  : result :=
  invoke (ev_what e)
    {| now := ev_time e; next_uid := next_uid s; events := rest;
       stopped := stopped s; wire := wire s;
       trace := trace s ++ [(ev_time e, ev_what e)] |}.

(** [Simulator::Run]: [while (!m_events->IsEmpty() && !m_stop)
    ProcessOneEvent();] *)
Fixpoint Run (fuel : nat) (s : sim) : outcome :=
  match events s with
  | [] => Done s
  | e :: rest =>
      if stopped s then Done s
      else match fuel with
           | O => OutOfFuel
           | S fuel' =>
               match ProcessOneEvent e rest s with
               | Ok s' => Run fuel' s'
               | OutOfBounds => Crashed
               end
           end
  end.

(** What [main] does with the scheduler: the sender starts at
    [Seconds(0.0)], [Simulator::Stop], [Simulator::Run]. *)
Definition setup (file : option (list byte)) : sim :=
  let s := Schedule (Seconds 0) (EvStartApplication file) initial in
  match stopAt cfg with
  | Some t => Stop t s
  | None => s
  end.

(** No run has more events than the start, the stop, one [Send] per byte
    and the last [Send]. *)
Definition enough (file : option (list byte)) : nat :=
  3 + length (read_file file).

Definition simulate (file : option (list byte)) : outcome :=
  Run (enough file) (setup file).

(** [int main]: [return 0] once [Simulator::Run] is back. *)
Definition main_with (file : option (list byte)) : exit :=
  match simulate file with
  | Done s => Exit 0 s
  | Crashed => Abort
  | OutOfFuel => Hang
  end.

End Sender.

(** [main] of emma-lte-sim.cc, on the file named by [--capFile]. *)
Definition main (socket : Z -> list byte -> Z) (file : option (list byte))
  : exit :=
  main_with emma socket file.

Definition exit_code (x : exit) : option Z :=
  match x with
  | Exit code _ => Some code
  | _ => None
  end.

Definition sent (x : exit) : list transmission :=
  match x with
  | Exit _ s => wire s
  | _ => []
  end.

(** ** The receivers

    The callback every UE's sink socket gets: it takes the packets that
    wait on the socket one by one and writes a line with the node's id and
    the time for each.  The time is kept in nanoseconds here; the line has
    it in seconds. *)

Definition reception : Type := (N * Z)%type.

Fixpoint RecvCallback (id : N) (at_time : Z) (waiting : list (list byte))
  : list reception :=
  match waiting with
  | [] => []
  | _ :: rest => (id, at_time) :: RecvCallback id at_time rest
  end.

(** The network between the sender's socket and a UE's socket is ns-3's.
    [transit id tx] is the time at which the packet of [tx] reaches the
    socket of node [id], or [None] when it never does; packets arrive in
    the order they were sent.  The log of a UE is what its callback wrote
    over the run. *)
Definition ue_log (transit : N -> transmission -> option Z) (id : N)
    (w : list transmission) : list reception :=
  flat_map (fun tx => match transit id tx with
                      | Some t => RecvCallback id t [tx_data tx]
                      | None => []
                      end) w.

(** ** The chain of [Send] events, written down

    What the chain is expected to put on the wire and in the trace when a
    [Send] for [offset] is due at time [t]: [m] bounds the number of steps,
    and a stop time, when there is one, ends the chain at the first step due
    at or after it.  The trace is written down for a run with no stop. *)

Definition before_stop (stop : option Z) (t : Z) : bool :=
  match stop with
  | Some t_stop => t <? t_stop
  | None => true
  end.

Fixpoint chain (cfg : config) (socket : Z -> list byte -> Z)
    (buffer : list byte) (m : nat) (offset t : Z) : list transmission :=
  match m with
  | O => []
  | S m' =>
      if (offset <? size buffer) && before_stop (stopAt cfg) t then
        let len := Z.min (chunk cfg) (size buffer - offset) in
        let p := slice buffer offset len in
        Transmission t offset len p (socket t p)
          :: chain cfg socket buffer m' (offset + len) (t + interval cfg)
      else []
  end.

Fixpoint steps (cfg : config) (buffer : list byte) (m : nat) (offset t : Z)
  : list (Z * event) :=
  match m with
  | O => [(t, EvSend buffer offset)]
  | S m' =>
      (t, EvSend buffer offset)
        :: (if offset <? size buffer then
              steps cfg buffer m'
                (offset + Z.min (chunk cfg) (size buffer - offset))
                (t + interval cfg)
            else [])
  end.

(** The offsets of the [Send] events in a trace, in the order they ran. *)
Fixpoint send_offsets (tr : list (Z * event)) : list Z :=
  match tr with
  | [] => []
  | (_, EvSend _ offset) :: rest => offset :: send_offsets rest
  | _ :: rest => send_offsets rest
  end.

Definition total_len (w : list transmission) : Z :=
  fold_right Z.add 0 (map tx_len w).

Definition payload_of (w : list transmission) : list byte :=
  concat (map tx_data w).

(** The number of chunks of size [c] a payload of [l] bytes needs. *)
Definition ceil_div (l c : Z) : Z := (l + c - 1) / c.

(** Payloads of a given size; the sizes of the spec's scenarios 1 and 2. *)
Definition payload (n : nat) : list byte := repeat x2a n.
Definition scenario1 : list byte := payload 2048.
Definition scenario2 : list byte := payload 2500.

(** A transmission without what the socket answered: when, from where, how
    many bytes, and which. *)
Definition handed (a : transmission) : Z * Z * Z * list byte :=
  (tx_time a, tx_offset a, tx_len a, tx_data a).


(** A socket on which every call succeeds, and one on which every call
    fails. *)
Definition socket_up (_ : Z) (p : list byte) : Z := size p.
Definition socket_down (_ : Z) (_ : list byte) : Z := -1.

(** * Properties *)

(** ** Arithmetic of [size_t] on values that do not wrap *)

Lemma wrap_small (z : Z) : 0 <= z < SizeT.modulus -> SizeT.wrap z = z.
Proof. intros H. unfold SizeT.wrap. now apply Z.mod_small. Qed.

Lemma to_uint32_small (z : Z) : 0 <= z < 2 ^ 32 -> to_uint32 z = z.
Proof. intros H. unfold to_uint32. now apply Z.mod_small. Qed.

Lemma size_nonneg (buffer : list byte) : 0 <= size buffer.
Proof. unfold size. lia. Qed.

(** ** Slices *)

Lemma slice_length (buffer : list byte) (o len : Z) :
  0 <= o -> 0 <= len -> o + len <= size buffer ->
  size (slice buffer o len) = len.
Proof.
  intros Ho Hl Hb. unfold slice, size in *.
  rewrite length_firstn, length_skipn. lia.
Qed.

Lemma slice_rest (buffer : list byte) (o len : Z) :
  0 <= o -> 0 <= len ->
  slice buffer o len ++ skipn (Z.to_nat (o + len)) buffer
  = skipn (Z.to_nat o) buffer.
Proof.
  intros Ho Hl. unfold slice.
  replace (Z.to_nat (o + len)) with (Z.to_nat len + Z.to_nat o)%nat by lia.
  rewrite <- skipn_skipn. apply firstn_skipn.
Qed.

(** ** One step of the sender *)

Section Step.

Variable cfg : config.
Variable socket : Z -> list byte -> Z.
Variable buffer : list byte.

Hypothesis chunk_ok : 0 < chunk cfg < 2 ^ 32.
Hypothesis size_ok : size buffer < SizeT.modulus.

(** In the guarded branch neither the subtraction nor the addition wraps,
    the length fits the packet's 32-bit size, and the read is inside the
    vector. *)
Lemma Send_inside (offset : Z) (s : sim) :
  0 <= offset < size buffer ->
  let len := Z.min (chunk cfg) (size buffer - offset) in
  Send cfg socket buffer offset s
  = Ok (Schedule (interval cfg) (EvSend buffer (offset + len))
          (socket_Send socket offset len (slice buffer offset len) s)).
Proof.
  intros Ho len. unfold Send.
  destruct (Z.ltb_spec offset (size buffer)) as [_|]; [|lia].
  assert (Hsub : SizeT.sub (size buffer) offset = size buffer - offset).
  { unfold SizeT.sub. apply wrap_small. lia. }
  rewrite Hsub. fold len.
  assert (Hlen : 0 < len <= size buffer - offset) by (unfold len; lia).
  assert (Hlen32 : len < 2 ^ 32) by (unfold len; lia).
  unfold Create_Packet. rewrite to_uint32_small by lia.
  destruct (Z.leb_spec 0 offset); [|lia].
  destruct (Z.leb_spec (offset + len) (size buffer)); [|lia].
  cbn [andb].
  assert (Hadd : SizeT.add offset len = offset + len).
  { unfold SizeT.add. apply wrap_small. lia. }
  now rewrite Hadd.
Qed.

Lemma Send_outside (offset : Z) (s : sim) :
  size buffer <= offset -> Send cfg socket buffer offset s = Ok s.
Proof.
  intros Ho. unfold Send.
  destruct (Z.ltb_spec offset (size buffer)); [lia|reflexivity].
Qed.

End Step.

(** ** The chain of [Send] events under [Simulator::Run] *)

Section Chain.

Variable cfg : config.
Variable socket : Z -> list byte -> Z.
Variable buffer : list byte.

Hypothesis chunk_ok : 0 < chunk cfg < 2 ^ 32.
Hypothesis size_ok : size buffer < SizeT.modulus.

(** With nothing else pending, a [Send] event for [offset] runs the whole
    chain and leaves the event list empty. *)
Lemma Run_chain_free (m : nat) :
  forall (offset t : Z) (u : N) (s : sim),
    stopAt cfg = None ->
    0 <= offset <= size buffer ->
    size buffer - offset <= Z.of_nat m ->
    events s = [Scheduled t u (EvSend buffer offset)] ->
    stopped s = false ->
    forall fuel, (S m <= fuel)%nat ->
    exists s',
      Run cfg socket fuel s = Done s' /\
      wire s' = wire s ++ chain cfg socket buffer m offset t /\
      trace s' = trace s ++ steps cfg buffer m offset t /\
      events s' = [] /\ stopped s' = false.
Proof.
  induction m as [|m IH]; intros offset t u s Hstop Ho Hm Hev Hrun fuel Hfuel;
    (destruct fuel as [|fuel]; [lia|]);
    cbn [Run]; rewrite Hev, Hrun; unfold ProcessOneEvent; cbn [ev_what ev_time invoke].
  - rewrite Send_outside by lia.
    eexists; split; [destruct fuel; reflexivity|].
    cbn. rewrite app_nil_r. auto.
  - destruct (Z.ltb_spec offset (size buffer)) as [Hlt|Hge].
    + rewrite Send_inside by (auto; lia).
      set (len := Z.min (chunk cfg) (size buffer - offset)).
      match goal with |- context [Run _ _ fuel ?s1] => set (s1' := s1) end.
      destruct (IH (offset + len) (t + interval cfg) (next_uid s) s1')
        with (fuel := fuel)
        as (s' & HR & Hw & Ht & He & Hs); auto; try (unfold len; lia).
      exists s'. split; [exact HR|].
      rewrite Hw, Ht. cbn [chain steps].
      destruct (Z.ltb_spec offset (size buffer)); [|lia].
      rewrite Hstop. cbn. fold len. rewrite <- !app_assoc. auto.
    + rewrite Send_outside by lia.
      eexists; split; [destruct fuel; reflexivity|].
      cbn [chain steps].
      destruct (Z.ltb_spec offset (size buffer)); [lia|].
      cbn. rewrite app_nil_r. auto.
Qed.

(** An event scheduled after the stop event comes before it exactly when
    its time is earlier. *)
Lemma insert_after_stop (t t_stop : Z) (u us : N) (what : event) :
  (us < u)%N ->
  insert_event (Scheduled t u what) [Scheduled t_stop us EvStop]
  = if t <? t_stop
    then [Scheduled t u what; Scheduled t_stop us EvStop]
    else [Scheduled t_stop us EvStop; Scheduled t u what].
Proof.
  intros Hu. cbn [insert_event]. unfold before. cbn [ev_time ev_uid].
  destruct (N.ltb_spec u us); [lia|].
  rewrite andb_false_r, orb_false_r. reflexivity.
Qed.

Lemma Run_step (fuel : nat) (s : sim) (e : scheduled) (rest : list scheduled) :
  events s = e :: rest ->
  stopped s = false ->
  Run cfg socket (S fuel) s
  = match ProcessOneEvent cfg socket e rest s with
    | Ok s' => Run cfg socket fuel s'
    | OutOfBounds => Crashed
    end.
Proof. intros Hev Hrun. cbn [Run]. now rewrite Hev, Hrun. Qed.

(** The stop event alone ends the run and sends nothing. *)
Lemma Run_stop_event (t_stop : Z) (us : N) (s : sim) (fuel : nat) :
  events s = [Scheduled t_stop us EvStop] ->
  stopped s = false ->
  exists s', Run cfg socket (S fuel) s = Done s' /\ wire s' = wire s.
Proof.
  intros Hev Hrun. cbn [Run]. rewrite Hev, Hrun.
  unfold ProcessOneEvent. cbn [ev_what ev_time invoke].
  eexists; split; [destruct fuel; reflexivity|reflexivity].
Qed.

(** With the stop event pending, the chain runs up to the first step that
    is due at the stop time or later. *)
Lemma Run_chain_stop (m : nat) :
  forall (offset t t_stop : Z) (u us : N) (s : sim),
    stopAt cfg = Some t_stop ->
    0 <= offset <= size buffer ->
    size buffer - offset <= Z.of_nat m ->
    events s = insert_event (Scheduled t u (EvSend buffer offset))
                            [Scheduled t_stop us EvStop] ->
    (us < u)%N -> (us < next_uid s)%N ->
    stopped s = false ->
    forall fuel, (S (S m) <= fuel)%nat ->
    exists s',
      Run cfg socket fuel s = Done s' /\
      wire s' = wire s ++ chain cfg socket buffer m offset t.
Proof.
  induction m as [|m IH];
    intros offset t t_stop u us s Hstop Ho Hm Hev Hu Hn Hrun fuel Hfuel;
    (destruct fuel as [|[|fuel]]; [lia|lia|]);
    rewrite insert_after_stop in Hev by assumption;
    cbn [chain]; rewrite ?Hstop; cbn [before_stop];
    destruct (Z.ltb_spec t t_stop) as [Hbefore|Hafter];
    rewrite (Run_step _ _ _ _ Hev Hrun); unfold ProcessOneEvent;
    cbn [ev_what ev_time invoke].
  - rewrite Send_outside by lia.
    match goal with |- context [Run _ _ (S fuel) ?s1] =>
      destruct (Run_stop_event t_stop us s1 fuel) as (s' & HR & Hw);
        [reflexivity|exact Hrun|] end.
    exists s'. split; [exact HR|]. rewrite Hw. cbn. now rewrite app_nil_r.
  - eexists; split; [reflexivity|]. cbn. now rewrite app_nil_r.
  - destruct (Z.ltb_spec offset (size buffer)) as [Hlt|Hge]; cbn [andb].
    + rewrite Send_inside by (auto; lia).
      set (len := Z.min (chunk cfg) (size buffer - offset)).
      match goal with |- context [Run _ _ (S fuel) ?s1] => set (s1' := s1) end.
      destruct (IH (offset + len) (t + interval cfg) t_stop (next_uid s) us s1')
        with (fuel := S fuel) as (s' & HR & Hw);
        auto; try (unfold len; lia); try (cbn; lia).
      exists s'. split; [exact HR|].
      rewrite Hw. cbn. rewrite <- app_assoc. reflexivity.
    + rewrite Send_outside by lia.
      match goal with |- context [Run _ _ (S fuel) ?s1] =>
        destruct (Run_stop_event t_stop us s1 fuel) as (s' & HR & Hw);
          [reflexivity|exact Hrun|] end.
      exists s'. split; [exact HR|]. rewrite Hw. cbn. now rewrite app_nil_r.
  - rewrite andb_false_r.
    eexists; split; [reflexivity|]. cbn. now rewrite app_nil_r.
Qed.

End Chain.

(** ** Whole runs *)

Section Runs.

Variable cfg : config.
Variable socket : Z -> list byte -> Z.
Variable file : option (list byte).

Hypothesis chunk_ok : 0 < chunk cfg < 2 ^ 32.
Hypothesis size_ok : size (read_file file) < SizeT.modulus.

(** The sender with no stop time: [Simulator::Run] returns, with the event
    list empty, after the start event and the chain. *)
Lemma simulate_free :
  stopAt cfg = None ->
  exists s,
    simulate cfg socket file = Done s /\
    wire s = chain cfg socket (read_file file) (length (read_file file))
               0 (startDelay cfg) /\
    trace s = (0, EvStartApplication file)
                :: steps cfg (read_file file) (length (read_file file))
                     0 (startDelay cfg) /\
    events s = [].
Proof.
  intros Hstop. unfold simulate, setup, enough. rewrite Hstop.
  change (3 + length (read_file file))%nat
    with (S (S (S (length (read_file file))))).
  erewrite Run_step by reflexivity.
  unfold ProcessOneEvent. cbn [ev_what ev_time invoke StartApplication].
  match goal with |- context [Run _ _ _ ?s1] => set (s1' := s1) end.
  destruct (Run_chain_free cfg socket (read_file file) chunk_ok size_ok
              (length (read_file file)) 0 (startDelay cfg) 1%N s1')
    with (fuel := S (S (length (read_file file))))
    as (s & HR & Hw & Ht & He & _);
    auto; try (pose proof (size_nonneg (read_file file)); unfold size; lia).
  exists s. split; [exact HR|]. rewrite Hw, Ht. auto.
Qed.

(** The sender under a stop time, as in [main]. *)
Lemma simulate_stop (t_stop : Z) :
  stopAt cfg = Some t_stop ->
  0 <= t_stop ->
  exists s,
    simulate cfg socket file = Done s /\
    wire s = chain cfg socket (read_file file) (length (read_file file))
               0 (startDelay cfg).
Proof.
  intros Hstop Hpos. unfold simulate, setup, enough. rewrite Hstop.
  change (3 + length (read_file file))%nat
    with (S (S (S (length (read_file file))))).
  assert (Hq : events (Stop t_stop
                 (Schedule (Seconds 0) (EvStartApplication file) initial))
               = [Scheduled 0 0%N (EvStartApplication file);
                  Scheduled t_stop 1%N EvStop]).
  { cbn. unfold before. cbn [ev_time ev_uid].
    destruct (Z.ltb_spec t_stop 0); [lia|].
    cbn. rewrite andb_false_r. reflexivity. }
  erewrite Run_step by (exact Hq || reflexivity).
  unfold ProcessOneEvent. cbn [ev_what ev_time invoke StartApplication].
  match goal with |- context [Run _ _ _ ?s1] => set (s1' := s1) end.
  destruct (Run_chain_stop cfg socket (read_file file) chunk_ok size_ok
              (length (read_file file)) 0 (startDelay cfg) t_stop 2%N 1%N s1')
    with (fuel := S (S (length (read_file file))))
    as (s & HR & Hw);
    auto; try (pose proof (size_nonneg (read_file file)); unfold size; lia);
    try (cbn; lia).
  exists s. split; [exact HR|]. rewrite Hw. reflexivity.
Qed.

End Runs.

(** [main] returns 0 whatever the file and the socket do, and what it sent
    is the chain cut at five seconds. *)
Lemma main_returns (socket : Z -> list byte -> Z) (file : option (list byte)) :
  size (read_file file) < SizeT.modulus ->
  exists s,
    main socket file = Exit 0 s /\
    wire s = chain emma socket (read_file file) (length (read_file file))
               0 (Seconds 1).
Proof.
  intros Hsize.
  destruct (simulate_stop emma socket file) with (t_stop := Seconds 5)
    as (s & HR & Hw); try reflexivity; try assumption.
  - cbn. lia.
  - unfold Seconds. lia.
  - exists s. unfold main, main_with. rewrite HR. auto.
Qed.

(** ** What the chain puts on the wire *)

Section Wire.

Variable cfg : config.
Variable socket : Z -> list byte -> Z.
Variable buffer : list byte.

Hypothesis chunk_pos : 0 < chunk cfg.
Hypothesis no_stop : stopAt cfg = None.

Local Abbreviation L := (size buffer).
Local Abbreviation C := (chunk cfg).

Lemma chain_unfold (m : nat) (o t : Z) :
  o < L ->
  chain cfg socket buffer (S m) o t
  = Transmission t o (Z.min C (L - o)) (slice buffer o (Z.min C (L - o)))
      (socket t (slice buffer o (Z.min C (L - o))))
      :: chain cfg socket buffer m (o + Z.min C (L - o)) (t + interval cfg).
Proof.
  intros Ho. cbn [chain]. rewrite no_stop. cbn [before_stop].
  destruct (Z.ltb_spec o L); [reflexivity|lia].
Qed.

Lemma chain_done (m : nat) (o t : Z) :
  L <= o -> chain cfg socket buffer m o t = [].
Proof.
  intros Ho. destruct m; cbn [chain]; [reflexivity|].
  destruct (Z.ltb_spec o L); [lia|reflexivity].
Qed.

Lemma chain_head (m : nat) (o t : Z) (a : transmission) :
  nth_error (chain cfg socket buffer m o t) 0 = Some a ->
  tx_offset a = o /\ tx_time a = t.
Proof.
  destruct m; cbn [chain]; [discriminate|].
  destruct (_ && _); [|discriminate].
  cbn. intros [= <-]. auto.
Qed.

Lemma chain_next (m : nat) :
  forall (o t : Z) (i : nat) (a b : transmission),
    nth_error (chain cfg socket buffer m o t) i = Some a ->
    nth_error (chain cfg socket buffer m o t) (S i) = Some b ->
    tx_offset b = tx_offset a + tx_len a /\
    tx_time b = tx_time a + interval cfg.
Proof.
  induction m as [|m IH]; intros o t i a b; cbn [chain]; [discriminate|].
  destruct (_ && _); [|discriminate].
  destruct i as [|i]; cbn [nth_error].
  - intros [= <-] Hb. apply chain_head in Hb. cbn. exact Hb.
  - apply IH.
Qed.

Lemma chain_each (m : nat) :
  forall (o t : Z) (a : transmission),
    0 <= o ->
    In a (chain cfg socket buffer m o t) ->
    0 <= tx_offset a < L /\
    tx_len a = Z.min C (L - tx_offset a) /\
    0 < tx_len a /\
    tx_offset a + tx_len a <= L /\
    tx_data a = slice buffer (tx_offset a) (tx_len a) /\
    tx_ret a = socket (tx_time a) (tx_data a).
Proof.
  induction m as [|m IH]; intros o t a Ho; cbn [chain]; [intros []|].
  destruct (Z.ltb_spec o L) as [Hlt|]; cbn [andb]; [|intros []].
  destruct (before_stop _ _); [|intros []].
  intros [<-|Hin].
  - cbn. repeat split; lia.
  - apply IH in Hin; [exact Hin|lia].
Qed.

(** The data of the chain from [o] on is the vector from [o] on. *)
Lemma chain_payload (m : nat) :
  forall (o t : Z),
    0 <= o <= L -> L - o <= Z.of_nat m ->
    payload_of (chain cfg socket buffer m o t) = skipn (Z.to_nat o) buffer.
Proof.
  unfold payload_of.
  induction m as [|m IH]; intros o t Ho Hm.
  - cbn. symmetry. apply skipn_all2. unfold size in *. lia.
  - destruct (Z.ltb_spec o L) as [Hlt|Hge].
    + rewrite chain_unfold by assumption. cbn [map concat tx_data].
      rewrite IH by lia. apply slice_rest; lia.
    + rewrite chain_done by assumption. cbn.
      symmetry. apply skipn_all2. unfold size in *. lia.
Qed.

Lemma chain_total_len (m : nat) :
  forall (o t : Z),
    0 <= o <= L -> L - o <= Z.of_nat m ->
    total_len (chain cfg socket buffer m o t) = L - o.
Proof.
  unfold total_len.
  induction m as [|m IH]; intros o t Ho Hm.
  - cbn. lia.
  - destruct (Z.ltb_spec o L) as [Hlt|Hge].
    + rewrite chain_unfold by assumption. cbn [map fold_right tx_len].
      rewrite IH by lia. lia.
    + rewrite chain_done by assumption. cbn. lia.
Qed.

(** The number of chunks from [o] on is the ceiling of what is left over
    the chunk size. *)
Lemma chain_count (m : nat) :
  forall (o t : Z),
    0 <= o <= L -> L - o <= Z.of_nat m ->
    Z.of_nat (length (chain cfg socket buffer m o t)) = (L - o + C - 1) / C.
Proof.
  induction m as [|m IH]; intros o t Ho Hm.
  - cbn [chain length]. replace (L - o + C - 1) with (C - 1) by lia.
    rewrite Z.div_small; lia.
  - destruct (Z.ltb_spec o L) as [Hlt|Hge].
    + rewrite chain_unfold by assumption. cbn [length].
      rewrite Nat2Z.inj_succ, IH by lia.
      destruct (Z.le_gt_cases C (L - o)) as [Hfull|Hshort].
      * rewrite Z.min_l by lia.
        replace (L - o + C - 1) with (L - (o + C) + C - 1 + 1 * C) by lia.
        rewrite Z.div_add by lia. lia.
      * rewrite Z.min_r by lia.
        replace (L - (o + (L - o)) + C - 1) with (C - 1) by lia.
        rewrite Z.div_small by lia.
        replace (L - o + C - 1) with (L - o - 1 + 1 * C) by lia.
        rewrite Z.div_add by lia. rewrite Z.div_small; lia.
    + rewrite chain_done by assumption. cbn [length].
      replace (L - o + C - 1) with (C - 1) by lia.
      rewrite Z.div_small; lia.
Qed.

(** Chunks start at multiples of the chunk size. *)
Lemma chain_offset (m : nat) :
  forall (o t : Z) (i : nat) (a : transmission),
    nth_error (chain cfg socket buffer m o t) i = Some a ->
    tx_offset a = o + Z.of_nat i * C.
Proof.
  induction m as [|m IH]; intros o t i a; [destruct i; discriminate|].
  destruct (Z.ltb_spec o L) as [Hlt|Hge].
  - rewrite chain_unfold by assumption.
    destruct i as [|i]; cbn [nth_error].
    + intros [= <-]. cbn. lia.
    + destruct (Z.le_gt_cases C (L - o)) as [Hfull|Hshort].
      * rewrite Z.min_l by lia. intros H. apply IH in H. lia.
      * rewrite Z.min_r by lia. rewrite chain_done by lia.
        destruct i; discriminate.
  - rewrite chain_done by assumption. destruct i; discriminate.
Qed.

(** The [Send] events that ran: one per chunk, and the one that found the
    vector exhausted. *)
Lemma steps_offsets (m : nat) :
  forall (o t : Z),
    0 <= o <= L -> L - o <= Z.of_nat m ->
    send_offsets (steps cfg buffer m o t)
    = map tx_offset (chain cfg socket buffer m o t) ++ [L].
Proof.
  induction m as [|m IH]; intros o t Ho Hm.
  - cbn. f_equal. lia.
  - cbn [steps send_offsets].
    destruct (Z.ltb_spec o L) as [Hlt|Hge].
    + rewrite chain_unfold by assumption. cbn [map tx_offset app].
      f_equal. apply IH; lia.
    + rewrite chain_done by assumption. cbn. f_equal. lia.
Qed.

Lemma chain_offsets_increase (m : nat) :
  forall (o t : Z),
    0 <= o <= L -> L - o <= Z.of_nat m ->
    StronglySorted Z.lt (map tx_offset (chain cfg socket buffer m o t) ++ [L])
    /\ Forall (fun x => o <= x)
         (map tx_offset (chain cfg socket buffer m o t) ++ [L]).
Proof.
  induction m as [|m IH]; intros o t Ho Hm.
  - cbn. split; repeat constructor. lia.
  - destruct (Z.ltb_spec o L) as [Hlt|Hge].
    + rewrite chain_unfold by assumption. cbn [map tx_offset app].
      destruct (IH (o + Z.min C (L - o)) (t + interval cfg)) as [Hs Hf];
        try lia.
      split; constructor; try assumption; try lia.
      * eapply Forall_impl; [|exact Hf]. cbn. intros. lia.
      * eapply Forall_impl; [|exact Hf]. cbn. intros. lia.
    + rewrite chain_done by assumption. cbn.
      split; repeat constructor. lia.
Qed.

End Wire.

(** ** Fuel *)

(** Once [Simulator::Run] has returned, more fuel changes nothing. *)
Lemma Run_more (cfg : config) (socket : Z -> list byte -> Z) (fuel : nat) :
  forall (s s' : sim) (k : nat),
    Run cfg socket fuel s = Done s' ->
    Run cfg socket (fuel + k) s = Done s'.
Proof.
  induction fuel as [|fuel IH]; intros s s' k; cbn [Run Nat.add].
  - intros H. destruct (events s) eqn:He.
    + injection H as <-. destruct k; cbn [Run]; now rewrite He.
    + destruct (stopped s) eqn:Hs; [|discriminate].
      injection H as <-. destruct k; cbn [Run]; now rewrite He, Hs.
  - destruct (events s) as [|e rest]; [auto|].
    destruct (stopped s); [auto|].
    destruct (ProcessOneEvent cfg socket e rest s); [apply IH|auto].
Qed.

(** ** The stop time of [main] *)

Section Horizon.

Variable cfg : config.
Variable socket : Z -> list byte -> Z.
Variable buffer : list byte.
Variable t_stop : Z.

Hypothesis chunk_pos : 0 < chunk cfg.
Hypothesis interval_nonneg : 0 <= interval cfg.
Hypothesis stop_at : stopAt cfg = Some t_stop.

(** A chain of at most [k] chunks whose last one is due before the stop
    time is not cut. *)
Lemma chain_before_stop (m : nat) :
  forall (k : nat) (o t : Z),
    size buffer - o <= Z.of_nat k * chunk cfg ->
    t + (Z.of_nat k - 1) * interval cfg < t_stop ->
    chain cfg socket buffer m o t
    = chain (unbounded cfg) socket buffer m o t.
Proof.
  induction m as [|m IH]; intros k o t Hk Ht; [reflexivity|].
  cbn [chain unbounded stopAt chunk interval before_stop].
  rewrite stop_at. cbn [before_stop].
  destruct (Z.ltb_spec o (size buffer)) as [Hlt|Hge]; [|reflexivity].
  destruct k as [|k]; [cbn in Hk; lia|].
  destruct (Z.ltb_spec t t_stop) as [|Hlate]; [|nia].
  cbn [andb]. f_equal.
  apply (IH k); [|nia].
  destruct (Z.le_gt_cases (chunk cfg) (size buffer - o)).
  - rewrite Z.min_l by lia. lia.
  - rewrite Z.min_r by lia. nia.
Qed.


End Horizon.

(** Up to 400 chunks, [main] sends what the sender sends with no stop time. *)
Lemma main_agrees (socket : Z -> list byte -> Z) (file : option (list byte)) :
  size (read_file file) <= 409600 ->
  exists s s',
    simulate (unbounded emma) socket file = Done s /\
    main socket file = Exit 0 s' /\
    wire s' = wire s.
Proof.
  intros Hsize.
  assert (Hm : size (read_file file) < SizeT.modulus).
  { unfold SizeT.modulus, SizeT.bits. lia. }
  destruct (main_returns socket file Hm) as (s' & Hmain & Hw').
  destruct (simulate_free (unbounded emma) socket file) as (s & HR & Hw & _);
    try reflexivity; try assumption.
  { cbn. lia. }
  exists s, s'. repeat split; try assumption.
  rewrite Hw, Hw'.
  apply (chain_before_stop emma socket (read_file file) (Seconds 5))
    with (k := 400%nat); try reflexivity.
  - unfold emma, interval, MilliSeconds. lia.
  - cbn [chunk emma]. lia.
Qed.


(** * The sender's guarantees *)

Lemma ceil_div_bounds (l c : Z) :
  0 < c -> 0 < l -> (ceil_div l c - 1) * c < l <= ceil_div l c * c.
Proof.
  intros Hc Hl. unfold ceil_div.
  pose proof (Z.div_mod (l + c - 1) c ltac:(lia)) as Hdm.
  pose proof (Z.mod_pos_bound (l + c - 1) c Hc) as Hmod.
  nia.
Qed.

Lemma ceil_div_zero (c : Z) : 0 < c -> ceil_div 0 c = 0.
Proof. intros Hc. unfold ceil_div. apply Z.div_small. lia. Qed.

Lemma nth_error_in_range {A : Type} (l : list A) (i : nat) :
  (i < length l)%nat -> exists a, nth_error l i = Some a.
Proof.
  intros Hi. destruct (nth_error l i) eqn:E; [eauto|].
  apply nth_error_None in E. lia.
Qed.

(** The complete run of the sender into the context, with what it sent
    and the events it ran. *)
Ltac complete_run cfg socket buffer s :=
  let HR := fresh "HR" in
  let Hw := fresh "Hw" in
  let Ht := fresh "Ht" in
  let He := fresh "He" in
  destruct (simulate_free (unbounded cfg) socket (Some buffer))
    as (s & HR & Hw & Ht & He); [assumption|assumption|reflexivity|];
  cbn [read_file startDelay unbounded] in Hw, Ht;
  pose proof (size_nonneg buffer);
  assert (size buffer - 0 <= Z.of_nat (length buffer)) by (unfold size; lia);
  assert (0 < chunk (unbounded cfg)) by (cbn; lia);
  assert (stopAt (unbounded cfg) = None) by reflexivity.

(** C1: the chunks the sender hands to the socket partition the payload:
    the first starts at offset 0, each next one starts where the one before
    it ended, each has length min(C, L - offset) and carries the bytes of
    its range, the lengths sum to L, none is empty (and none is sent when
    L = 0), and their bytes in send order are the payload. *)
Theorem chunks_partition_payload
    (cfg : config) (socket : Z -> list byte -> Z) (buffer : list byte) :
  0 < chunk cfg < 2 ^ 32 ->
  size buffer < SizeT.modulus ->
  exists s,
    simulate (unbounded cfg) socket (Some buffer) = Done s /\
    (forall a, nth_error (wire s) 0 = Some a -> tx_offset a = 0) /\
    (forall i a b,
        nth_error (wire s) i = Some a ->
        nth_error (wire s) (S i) = Some b ->
        tx_offset b = tx_offset a + tx_len a) /\
    (forall a, In a (wire s) ->
        tx_len a = Z.min (chunk cfg) (size buffer - tx_offset a) /\
        tx_data a = slice buffer (tx_offset a) (tx_len a) /\
        size (tx_data a) = tx_len a) /\
    total_len (wire s) = size buffer /\
    (forall a, In a (wire s) -> tx_len a <> 0) /\
    (size buffer = 0 -> wire s = []) /\
    payload_of (wire s) = buffer.
Proof.
  intros Hchunk Hsize.
  complete_run cfg socket buffer s.
  assert (Heach : forall a,
             In a (chain (unbounded cfg) socket buffer (length buffer)
                     0 (startDelay cfg)) ->
             0 <= tx_offset a < size buffer /\
             tx_len a = Z.min (chunk cfg) (size buffer - tx_offset a) /\
             0 < tx_len a /\
             tx_offset a + tx_len a <= size buffer /\
             tx_data a = slice buffer (tx_offset a) (tx_len a) /\
             tx_ret a = socket (tx_time a) (tx_data a)).
  { intros a Ha. eapply chain_each in Ha; [exact Ha|assumption|lia]. }
  exists s. split; [exact HR|]. rewrite Hw.
  split; [|split; [|split; [|split; [|split; [|split]]]]].
  - intros a Ha. now apply chain_head in Ha.
  - intros i a b Ha Hb. eapply chain_next; eauto.
  - intros a Ha. apply Heach in Ha.
    destruct Ha as (Hin & Hlen & Hne & Hend & Hdata & _).
    split; [exact Hlen|]. split; [exact Hdata|].
    rewrite Hdata. apply slice_length; lia.
  - rewrite chain_total_len; auto; lia.
  - intros a Ha. apply Heach in Ha. lia.
  - intros Hzero. apply chain_done. lia.
  - rewrite chain_payload; auto; lia.
Qed.

Lemma chunks_partition_payload_witness :
  0 < chunk emma < 2 ^ 32 /\
  size scenario2 < SizeT.modulus /\
  exists s,
    simulate (unbounded emma) socket_up (Some scenario2) = Done s /\
    map tx_len (wire s) = [1024; 1024; 452] /\
    payload_of (wire s) = scenario2.
Proof.
  assert (Hc : 0 < chunk emma < 2 ^ 32) by (cbn; lia).
  assert (Hs : size scenario2 < SizeT.modulus) by reflexivity.
  split; [exact Hc|]. split; [exact Hs|].
  destruct (chunks_partition_payload emma socket_up scenario2 Hc Hs)
    as (s & HR & _ & _ & _ & _ & _ & _ & Hp).
  exists s. split; [exact HR|]. split; [|exact Hp].
  vm_compute in HR. injection HR as <-. reflexivity.
Defined.

(** C3: the sender hands ceil(L / C) chunks to the socket, none when L = 0;
    when C divides L the last chunk is a full one. *)
Theorem chunk_count
    (cfg : config) (socket : Z -> list byte -> Z) (buffer : list byte) :
  0 < chunk cfg < 2 ^ 32 ->
  size buffer < SizeT.modulus ->
  exists s,
    simulate (unbounded cfg) socket (Some buffer) = Done s /\
    let n := Z.of_nat (length (wire s)) in
    n = ceil_div (size buffer) (chunk cfg) /\
    (size buffer = 0 -> n = 0) /\
    (0 < size buffer -> (n - 1) * chunk cfg < size buffer <= n * chunk cfg) /\
    (0 < size buffer -> size buffer mod chunk cfg = 0 ->
     exists a,
       nth_error (wire s) (length (wire s) - 1) = Some a /\
       tx_len a = chunk cfg).
Proof.
  intros Hchunk Hsize.
  complete_run cfg socket buffer s.
  assert (Hn : Z.of_nat (length (wire s)) = ceil_div (size buffer) (chunk cfg)).
  { rewrite Hw, chain_count by (auto; lia). unfold ceil_div.
    cbn [chunk unbounded]. f_equal. lia. }
  exists s. split; [exact HR|]. cbv zeta.
  split; [exact Hn|]. split; [|split].
  - intros Hzero. rewrite Hn, Hzero. apply ceil_div_zero. lia.
  - intros Hpos. rewrite Hn. apply ceil_div_bounds; lia.
  - intros Hpos Hdiv.
    pose proof (ceil_div_bounds (size buffer) (chunk cfg) ltac:(lia) Hpos) as Hb.
    rewrite <- Hn in Hb.
    destruct (nth_error_in_range (wire s) (length (wire s) - 1)) as [a Ha];
      [lia|].
    exists a. split; [exact Ha|].
    assert (Hin : In a (wire s)) by (eapply nth_error_In; eauto).
    remember (length (wire s) - 1)%nat as i eqn:Hi.
    rewrite Hw in Ha, Hin.
    apply chain_offset in Ha; [|reflexivity].
    eapply chain_each in Hin; [|assumption|lia].
    destruct Hin as (_ & Hlen & _). cbn [chunk unbounded] in Ha, Hlen.
    apply Z.mod_divide in Hdiv; [|lia]. destruct Hdiv as [q Hq].
    assert (Hiz : Z.of_nat i = Z.of_nat (length (wire s)) - 1) by lia.
    assert (q = Z.of_nat (length (wire s))) by nia.
    subst q. rewrite Hlen, Ha, Hiz, Hq. lia.
Qed.

Lemma chunk_count_witness :
  0 < chunk emma < 2 ^ 32 /\
  size scenario1 < SizeT.modulus /\
  exists s,
    simulate (unbounded emma) socket_up (Some scenario1) = Done s /\
    Z.of_nat (length (wire s)) = 2 /\
    map tx_len (wire s) = [1024; 1024].
Proof.
  assert (Hc : 0 < chunk emma < 2 ^ 32) by (cbn; lia).
  assert (Hs : size scenario1 < SizeT.modulus) by reflexivity.
  split; [exact Hc|]. split; [exact Hs|].
  destruct (chunk_count emma socket_up scenario1 Hc Hs) as (s & HR & Hn & _).
  exists s. split; [exact HR|]. split; [exact Hn|].
  vm_compute in HR. injection HR as <-. reflexivity.
Defined.

(** C5: the first chunk goes to the socket at virtual time startDelay, and
    any two consecutive chunks are exactly one interval apart; in [main]
    that is at one second, and ten milliseconds apart. *)
Theorem cadence
    (cfg : config) (socket : Z -> list byte -> Z) (buffer : list byte) :
  0 < chunk cfg < 2 ^ 32 ->
  size buffer < SizeT.modulus ->
  (exists s,
    simulate (unbounded cfg) socket (Some buffer) = Done s /\
    (0 < size buffer ->
     exists a, nth_error (wire s) 0 = Some a /\ tx_time a = startDelay cfg) /\
    (forall i a b,
        nth_error (wire s) i = Some a ->
        nth_error (wire s) (S i) = Some b ->
        tx_time b - tx_time a = interval cfg)) /\
  (exists s,
    main socket (Some buffer) = Exit 0 s /\
    (0 < size buffer ->
     exists a, nth_error (wire s) 0 = Some a /\ tx_time a = Seconds 1) /\
    (forall i a b,
        nth_error (wire s) i = Some a ->
        nth_error (wire s) (S i) = Some b ->
        tx_time b - tx_time a = MilliSeconds 10)).
Proof.
  intros Hchunk Hsize. split.
  - complete_run cfg socket buffer s.
    exists s. split; [exact HR|]. rewrite Hw. split.
    + intros Hpos.
      destruct buffer as [|c rest]; [cbn in Hpos; lia|].
      cbn [length]. rewrite chain_unfold by (auto; lia). cbn. eauto.
    + intros i a b Ha Hb.
      destruct (chain_next _ _ _ _ _ _ _ _ _ Ha Hb) as [_ Htime].
      cbn [interval unbounded] in Htime. lia.
  - destruct (main_returns socket (Some buffer) Hsize) as (s & Hmain & Hw).
    cbn [read_file] in Hw.
    exists s. split; [exact Hmain|]. rewrite Hw. split.
    + intros Hpos.
      destruct buffer as [|c rest]; [cbn in Hpos; lia|].
      cbn [chain length].
      destruct (Z.ltb_spec 0 (size (c :: rest))); [|lia].
      cbn. eauto.
    + intros i a b Ha Hb.
      destruct (chain_next _ _ _ _ _ _ _ _ _ Ha Hb) as [_ Htime].
      cbn [interval emma] in Htime. lia.
Qed.

Lemma cadence_witness :
  0 < chunk emma < 2 ^ 32 /\
  size scenario1 < SizeT.modulus /\
  exists s,
    main socket_up (Some scenario1) = Exit 0 s /\
    map tx_time (wire s) = [1000000000; 1010000000].
Proof.
  assert (Hc : 0 < chunk emma < 2 ^ 32) by (cbn; lia).
  assert (Hs : size scenario1 < SizeT.modulus) by reflexivity.
  split; [exact Hc|]. split; [exact Hs|].
  destruct (cadence emma socket_up scenario1 Hc Hs) as (_ & s & HR & _).
  exists s. split; [exact HR|].
  vm_compute in HR. injection HR as <-. reflexivity.
Defined.

(** C6: with the empty payload the first [Send] finds nothing to send and
    schedules nothing, the sender hands nothing to the socket, and the log
    of every receiver is empty. *)
Theorem empty_payload
    (cfg : config) (socket : Z -> list byte -> Z)
    (transit : N -> transmission -> option Z) (id : N) :
  (forall s0, Send cfg socket [] 0 s0 = Ok s0) /\
  (exists s,
    simulate (unbounded cfg) socket (Some []) = Done s /\
    wire s = [] /\
    send_offsets (trace s) = [0] /\
    events s = [] /\
    ue_log transit id (wire s) = []) /\
  (exists s,
    main socket (Some []) = Exit 0 s /\
    wire s = [] /\
    send_offsets (trace s) = [0] /\
    ue_log transit id (wire s) = []).
Proof.
  split; [|split].
  - intros s0. reflexivity.
  - eexists. split; [reflexivity|]. cbn. auto.
  - eexists. split; [reflexivity|]. cbn. auto.
Qed.

(** C8: the offset of the first [Send] is 0; after each chunk the next
    [Send] is for the offset advanced by the chunk's length; a [Send] does
    nothing exactly when its offset is L or more; over the run the offsets
    of the [Send] events increase strictly. *)
Theorem offset_advances
    (cfg : config) (socket : Z -> list byte -> Z) (buffer : list byte) :
  0 < chunk cfg < 2 ^ 32 ->
  size buffer < SizeT.modulus ->
  exists s,
    simulate (unbounded cfg) socket (Some buffer) = Done s /\
    nth_error (send_offsets (trace s)) 0 = Some 0 /\
    (forall i x y,
        nth_error (send_offsets (trace s)) i = Some x ->
        nth_error (send_offsets (trace s)) (S i) = Some y ->
        exists a,
          nth_error (wire s) i = Some a /\
          tx_offset a = x /\ y = x + tx_len a) /\
    (forall offset s0,
        0 <= offset ->
        (size buffer <= offset <-> Send cfg socket buffer offset s0 = Ok s0)) /\
    StronglySorted Z.lt (send_offsets (trace s)).
Proof.
  intros Hchunk Hsize.
  complete_run cfg socket buffer s.
  assert (Hoff : send_offsets (trace s)
                 = map tx_offset (wire s) ++ [size buffer]).
  { rewrite Ht, Hw. cbn [send_offsets]. apply steps_offsets; auto; lia. }
  exists s. split; [exact HR|]. rewrite Hoff.
  split; [|split; [|split]].
  - rewrite Hw. destruct (Z.eq_dec (size buffer) 0) as [Hzero|Hne].
    + rewrite chain_done by lia. cbn. now rewrite Hzero.
    + destruct buffer as [|c rest]; [now contradiction Hne|].
      cbn [length]. rewrite chain_unfold by (auto; lia). reflexivity.
  - intros i x y Hx Hy.
    assert (Hi : (i < length (wire s))%nat).
    { assert (Hlt : (S i < length (map tx_offset (wire s) ++ [size buffer]))%nat)
        by (apply nth_error_Some; congruence).
      rewrite length_app, length_map in Hlt. cbn in Hlt. lia. }
    destruct (nth_error_in_range (wire s) i Hi) as [a Ha].
    exists a. split; [exact Ha|].
    rewrite nth_error_app1 in Hx by (rewrite length_map; exact Hi).
    rewrite nth_error_map, Ha in Hx. cbn in Hx.
    injection Hx as Hx. split; [exact Hx|].
    destruct (Nat.eq_dec (S i) (length (wire s))) as [Hlast|Hmore].
    + rewrite nth_error_app2 in Hy by (rewrite length_map; lia).
      rewrite length_map, Hlast, Nat.sub_diag in Hy. cbn in Hy.
      injection Hy as <-.
      assert (Hin : In a (wire s)) by (eapply nth_error_In; eauto).
      assert (Hia : Z.of_nat i = Z.of_nat (length (wire s)) - 1) by lia.
      assert (Hn : Z.of_nat (length (wire s))
                   = ceil_div (size buffer) (chunk cfg)).
      { rewrite Hw, chain_count by (auto; lia). unfold ceil_div.
        cbn [chunk unbounded]. f_equal. lia. }
      rewrite Hw in Ha, Hin.
      apply chain_offset in Ha; [|reflexivity].
      eapply chain_each in Hin; [|assumption|lia].
      destruct Hin as (Hrange & Hlen & _). cbn [chunk unbounded] in Ha, Hlen.
      pose proof (ceil_div_bounds (size buffer) (chunk cfg)) as Hb.
      rewrite <- Hn in Hb. subst x.
      rewrite Hlen. nia.
    + assert (Hi' : (S i < length (wire s))%nat) by lia.
      destruct (nth_error_in_range (wire s) (S i) Hi') as [b Hb].
      rewrite nth_error_app1 in Hy by (rewrite length_map; exact Hi').
      rewrite nth_error_map, Hb in Hy. cbn in Hy. injection Hy as <-.
      rewrite Hw in Ha, Hb.
      destruct (chain_next _ _ _ _ _ _ _ _ _ Ha Hb) as [Hnext _].
      rewrite Hnext. lia.
  - intros offset s0 Hoffset. split.
    + intros Hge. now apply Send_outside.
    + intros HS.
      destruct (Z.le_gt_cases (size buffer) offset) as [|Hlt]; [assumption|].
      rewrite Send_inside in HS by (auto; lia).
      injection HS as HS. apply (f_equal wire) in HS. cbn in HS.
      apply (f_equal (@length _)) in HS. rewrite length_app in HS.
      cbn in HS. lia.
  - rewrite Hw. apply chain_offsets_increase; auto; lia.
Qed.

Lemma offset_advances_witness :
  0 < chunk emma < 2 ^ 32 /\
  size scenario2 < SizeT.modulus /\
  exists s,
    simulate (unbounded emma) socket_up (Some scenario2) = Done s /\
    send_offsets (trace s) = [0; 1024; 2048; 2500] /\
    StronglySorted Z.lt (send_offsets (trace s)).
Proof.
  assert (Hc : 0 < chunk emma < 2 ^ 32) by (cbn; lia).
  assert (Hs : size scenario2 < SizeT.modulus) by reflexivity.
  split; [exact Hc|]. split; [exact Hs|].
  destruct (offset_advances emma socket_up scenario2 Hc Hs)
    as (s & HR & _ & _ & _ & Hsorted).
  exists s. split; [exact HR|]. split; [|exact Hsorted].
  vm_compute in HR. injection HR as <-. reflexivity.
Defined.

(** C9: every packet is read inside the vector: at each [Send] that reaches
    the socket, offset < L and offset + len <= L, the bytes are the slice
    [offset, offset + len), and no [Send] at any offset a [size_t] can hold
    ends in a read out of bounds; neither the complete run nor [main]
    crashes. *)
Theorem reads_in_bounds
    (cfg : config) (socket : Z -> list byte -> Z) (buffer : list byte) :
  0 < chunk cfg < 2 ^ 32 ->
  size buffer < SizeT.modulus ->
  (forall offset s0,
      0 <= offset -> Send cfg socket buffer offset s0 <> OutOfBounds) /\
  (exists s,
    simulate (unbounded cfg) socket (Some buffer) = Done s /\
    forall a, In a (wire s) ->
      0 <= tx_offset a < size buffer /\
      tx_offset a + tx_len a <= size buffer /\
      Create_Packet buffer (tx_offset a) (tx_len a) = Some (tx_data a) /\
      size (tx_data a) = tx_len a) /\
  main socket (Some buffer) <> Abort.
Proof.
  intros Hchunk Hsize. split; [|split].
  - intros offset s0 Hoffset.
    destruct (Z.le_gt_cases (size buffer) offset).
    + rewrite Send_outside by assumption. discriminate.
    + rewrite Send_inside by (auto; lia). discriminate.
  - complete_run cfg socket buffer s.
    exists s. split; [exact HR|].
    intros a Ha. rewrite Hw in Ha.
    eapply chain_each in Ha; [|assumption|lia].
    destruct Ha as (Hrange & Hlen & Hpos & Hend & Hdata & _).
    cbn [chunk unbounded] in Hlen.
    split; [exact Hrange|]. split; [exact Hend|]. split.
    + unfold Create_Packet. rewrite to_uint32_small by lia.
      destruct (Z.leb_spec 0 (tx_offset a)); [|lia].
      destruct (Z.leb_spec (tx_offset a + tx_len a) (size buffer)); [|lia].
      cbn. now rewrite Hdata.
    + rewrite Hdata. apply slice_length; lia.
  - destruct (main_returns socket (Some buffer) Hsize) as (s & Hmain & _).
    rewrite Hmain. discriminate.
Qed.

Lemma reads_in_bounds_witness :
  0 < chunk emma < 2 ^ 32 /\
  size scenario2 < SizeT.modulus /\
  Send emma socket_up scenario2 2048 initial <> OutOfBounds /\
  Send emma socket_up scenario2 2500 initial <> OutOfBounds.
Proof.
  assert (Hc : 0 < chunk emma < 2 ^ 32) by (cbn; lia).
  assert (Hs : size scenario2 < SizeT.modulus) by reflexivity.
  split; [exact Hc|]. split; [exact Hs|].
  destruct (reads_in_bounds emma socket_up scenario2 Hc Hs) as (Hsafe & _ & _).
  split; apply Hsafe; lia.
Defined.

Lemma last_app_one {A : Type} (l : list A) (x d : A) : last (l ++ [x]) d = x.
Proof.
  induction l as [|a l IH]; [reflexivity|].
  cbn [app last]. destruct (l ++ [x]) eqn:E; [|exact IH].
  destruct l; discriminate.
Qed.

(** C10: the chain of [Send] events ends: with any fuel from [enough] on,
    [Simulator::Run] returns the same state, with no event left; every
    chunk sent has at least one byte, the offsets of the [Send] events
    increase strictly up to L, there are ceil(L / C) + 1 of them, and a
    [Send] at L neither sends nor schedules.  [main], with its stop time,
    returns as well. *)
Theorem chain_terminates
    (cfg : config) (socket : Z -> list byte -> Z) (buffer : list byte) :
  0 < chunk cfg < 2 ^ 32 ->
  size buffer < SizeT.modulus ->
  exists s,
    (forall fuel, (enough (Some buffer) <= fuel)%nat ->
       Run (unbounded cfg) socket fuel (setup (unbounded cfg) (Some buffer))
       = Done s) /\
    events s = [] /\
    (forall a, In a (wire s) -> 1 <= tx_len a) /\
    StronglySorted Z.lt (send_offsets (trace s)) /\
    last (send_offsets (trace s)) 0 = size buffer /\
    Z.of_nat (length (send_offsets (trace s)))
    = ceil_div (size buffer) (chunk cfg) + 1 /\
    (forall s0, Send cfg socket buffer (size buffer) s0 = Ok s0) /\
    (exists s', main socket (Some buffer) = Exit 0 s').
Proof.
  intros Hchunk Hsize.
  complete_run cfg socket buffer s.
  assert (Hoff : send_offsets (trace s)
                 = map tx_offset (wire s) ++ [size buffer]).
  { rewrite Ht, Hw. cbn [send_offsets]. apply steps_offsets; auto; lia. }
  exists s. split; [|split; [|split; [|split; [|split; [|split; [|split]]]]]].
  - intros fuel Hfuel.
    replace fuel with (enough (Some buffer) + (fuel - enough (Some buffer)))%nat
      by lia.
    apply Run_more. exact HR.
  - exact He.
  - intros a Ha. rewrite Hw in Ha.
    eapply chain_each in Ha; [|assumption|lia]. lia.
  - rewrite Hoff, Hw. apply chain_offsets_increase; auto; lia.
  - rewrite Hoff. apply last_app_one.
  - rewrite Hoff, length_app, length_map, Hw. cbn [length].
    rewrite Nat2Z.inj_add, chain_count by (auto; lia).
    unfold ceil_div. cbn [chunk unbounded]. rewrite Z.sub_0_r. reflexivity.
  - intros s0. apply Send_outside. lia.
  - destruct (main_returns socket (Some buffer) Hsize) as (s' & Hmain & _).
    eauto.
Qed.

Lemma chain_terminates_witness :
  0 < chunk emma < 2 ^ 32 /\
  size scenario2 < SizeT.modulus /\
  exists s,
    Run (unbounded emma) socket_up 5 (setup (unbounded emma) (Some scenario2))
    = Done s /\
    Run (unbounded emma) socket_up 2503 (setup (unbounded emma) (Some scenario2))
    = Done s /\
    events s = [].
Proof.
  assert (Hc : 0 < chunk emma < 2 ^ 32) by (cbn; lia).
  assert (Hs : size scenario2 < SizeT.modulus) by reflexivity.
  split; [exact Hc|]. split; [exact Hs|].
  destruct (chain_terminates emma socket_up scenario2 Hc Hs)
    as (s & HR & He & _).
  exists s. split; [|split; [|exact He]].
  - rewrite <- (HR 2503%nat) by (vm_compute; lia). vm_compute. reflexivity.
  - apply HR. vm_compute. lia.
Defined.

(** * Where the program differs from its description *)

Lemma insert_event_length (e : scheduled) (q : list scheduled) :
  length (insert_event e q) = S (length q).
Proof.
  induction q as [|h q IH]; [reflexivity|].
  cbn [insert_event]. destruct (before e h); cbn [length]; congruence.
Qed.

(** C2, as the program has it: a [Send] at an offset below L hands the
    chunk to the socket and schedules exactly one successor, for
    offset + len at now + interval, also when offset + len >= L; a [Send]
    at L or beyond sends nothing and schedules nothing. *)
Theorem send_schedules_successor
    (cfg : config) (socket : Z -> list byte -> Z) (buffer : list byte)
    (offset : Z) (s : sim) :
  0 < chunk cfg < 2 ^ 32 ->
  size buffer < SizeT.modulus ->
  0 <= offset ->
  (offset < size buffer ->
   let len := Z.min (chunk cfg) (size buffer - offset) in
   exists s',
     Send cfg socket buffer offset s = Ok s' /\
     events s'
     = insert_event
         (Scheduled (now s + interval cfg) (next_uid s)
                    (EvSend buffer (offset + len)))
         (events s) /\
     length (events s') = S (length (events s)) /\
     wire s'
     = wire s ++ [Transmission (now s) offset len (slice buffer offset len)
                    (socket (now s) (slice buffer offset len))]) /\
  (size buffer <= offset -> Send cfg socket buffer offset s = Ok s).
Proof.
  intros Hchunk Hsize Hoffset. split.
  - intros Hlt len. rewrite Send_inside by (auto; lia). fold len.
    eexists. split; [reflexivity|]. cbn [events wire Schedule socket_Send now
                                         next_uid].
    split; [reflexivity|]. split; [apply insert_event_length|reflexivity].
  - intros Hge. now apply Send_outside.
Qed.

Lemma send_schedules_successor_witness :
  0 < chunk emma < 2 ^ 32 /\
  size (payload 1) < SizeT.modulus /\
  0 <= 0 /\
  exists s',
    Send emma socket_up (payload 1) 0 initial = Ok s' /\
    length (events s') = 1%nat.
Proof.
  assert (Hc : 0 < chunk emma < 2 ^ 32) by (cbn; lia).
  assert (Hs : size (payload 1) < SizeT.modulus) by reflexivity.
  split; [exact Hc|]. split; [exact Hs|]. split; [lia|].
  destruct (send_schedules_successor emma socket_up (payload 1) 0 initial
              Hc Hs ltac:(lia)) as [Hin _].
  destruct (Hin ltac:(reflexivity)) as (s' & HS & _ & Hlen & _).
  exists s'. split; [exact HS|exact Hlen].
Defined.

(** C2, as it is written, fails on a payload of one byte: the only chunk
    ends the payload (offset + len >= L), and the [Send] still schedules
    an event, the [Send] for offset 1 ten milliseconds later. *)
Lemma last_chunk_still_schedules :
  0 + Z.min (chunk emma) (size (payload 1) - 0) >= size (payload 1) /\
  exists s',
    Send emma socket_up (payload 1) 0 initial = Ok s' /\
    events s' = [Scheduled (MilliSeconds 10) 0 (EvSend (payload 1) 1)] /\
    events s' <> events initial.
Proof.
  split; [vm_compute; discriminate|].
  eexists. split; [reflexivity|]. split; [reflexivity|]. discriminate.
Qed.

Lemma ue_log_app (transit : N -> transmission -> option Z) (id : N)
    (w1 w2 : list transmission) :
  ue_log transit id (w1 ++ w2) = ue_log transit id w1 ++ ue_log transit id w2.
Proof. unfold ue_log. apply flat_map_app. Qed.

(** C4, as the program has it: what [Socket::Send] returns is dropped.
    When the call fails, the [Send] still schedules its successor for
    offset + len at now + interval, as after a call that succeeds; the
    chunk that failed is not sent again; nothing is reported: [main]
    returns 0 whatever the socket does.  What was sent before stays in the
    record, and so does what a receiver logged. *)
Theorem failed_send_is_ignored
    (cfg : config) (socket : Z -> list byte -> Z) (buffer : list byte)
    (offset : Z) (s : sim) :
  0 < chunk cfg < 2 ^ 32 ->
  size buffer < SizeT.modulus ->
  0 <= offset < size buffer ->
  let len := Z.min (chunk cfg) (size buffer - offset) in
  let p := slice buffer offset len in
  socket (now s) p < 0 ->
  (exists s',
     Send cfg socket buffer offset s = Ok s' /\
     events s'
     = insert_event
         (Scheduled (now s + interval cfg) (next_uid s)
                    (EvSend buffer (offset + len)))
         (events s) /\
     wire s' = wire s ++ [Transmission (now s) offset len p (socket (now s) p)] /\
     forall transit id,
       exists more,
         ue_log transit id (wire s') = ue_log transit id (wire s) ++ more) /\
  (forall file,
     size (read_file file) < SizeT.modulus ->
     exit_code (main socket file) = Some 0).
Proof.
  intros Hchunk Hsize Hoffset len p Hfail. split.
  - rewrite Send_inside by (auto; lia). fold len. fold p.
    eexists. split; [reflexivity|].
    cbn [events wire Schedule socket_Send now next_uid].
    split; [reflexivity|]. split; [reflexivity|].
    intros transit id. eexists. apply ue_log_app.
  - intros file Hfile.
    destruct (main_returns socket file Hfile) as (s' & Hmain & _).
    now rewrite Hmain.
Qed.

Lemma failed_send_is_ignored_witness :
  0 < chunk emma < 2 ^ 32 /\
  size scenario2 < SizeT.modulus /\
  0 <= 0 < size scenario2 /\
  socket_down (now initial) (slice scenario2 0 1024) < 0 /\
  (exists s',
     Send emma socket_down scenario2 0 initial = Ok s' /\
     events s' = [Scheduled (MilliSeconds 10) 0 (EvSend scenario2 1024)]) /\
  exit_code (main socket_down (Some scenario2)) = Some 0.
Proof.
  assert (Hc : 0 < chunk emma < 2 ^ 32) by (cbn; lia).
  assert (Hs : size scenario2 < SizeT.modulus) by reflexivity.
  assert (Ho : 0 <= 0 < size scenario2) by (split; [lia|reflexivity]).
  assert (Hf : socket_down (now initial) (slice scenario2 0 1024) < 0)
    by reflexivity.
  split; [exact Hc|]. split; [exact Hs|]. split; [exact Ho|].
  split; [exact Hf|].
  destruct (failed_send_is_ignored emma socket_down scenario2 0 initial
              Hc Hs Ho Hf) as [(s' & HS & Hev & _) Hexit].
  split.
  - exists s'. split; [exact HS|]. rewrite Hev. reflexivity.
  - apply (Hexit (Some scenario2)). exact Hs.
Defined.

(** C4, as it is written, fails when the socket is down: the first call
    fails, and [main] still schedules and runs the next [Send], which
    hands the second chunk to the socket, and returns 0. *)
Lemma send_goes_on_after_failure :
  exists s,
    main socket_down (Some (payload 1025)) = Exit 0 s /\
    map tx_ret (wire s) = [-1; -1] /\
    map tx_offset (wire s) = [0; 1024] /\
    map tx_time (wire s) = [Seconds 1; Seconds 1 + MilliSeconds 10].
Proof.
  eexists. split; [vm_compute; reflexivity|]. cbn [wire].
  repeat split.
Qed.

(** C7, as the program has it: a file that cannot be opened is read as
    the empty payload; nothing is sent, nothing is reported, and [main]
    returns 0 as it does for an empty file. *)
Theorem missing_file_is_empty_payload (socket : Z -> list byte -> Z) :
  read_file None = [] /\
  (exists s, main socket None = Exit 0 s /\ wire s = []) /\
  exit_code (main socket None) = exit_code (main socket (Some [])) /\
  sent (main socket None) = sent (main socket (Some [])).
Proof.
  split; [reflexivity|]. split.
  - eexists. split; reflexivity.
  - split; reflexivity.
Qed.

(** C7, as it is written, fails: with no file to read [main] ends as a
    normal run does, with exit code 0. *)
Lemma missing_file_exits_zero :
  exit_code (main socket_up None) = Some 0 /\
  sent (main socket_up None) = [].
Proof. split; reflexivity. Qed.

(** * The run of [main] under its stop time *)

Lemma filter_none {A : Type} (f : A -> bool) (l : list A) :
  (forall a, In a l -> f a = false) -> filter f l = [].
Proof.
  induction l as [|x l IH]; intros H; [reflexivity|].
  cbn [filter]. rewrite (H x) by (left; reflexivity).
  apply IH. intros a Ha. apply H. right. exact Ha.
Qed.

Section Cut.

Variable cfg : config.
Variable socket : Z -> list byte -> Z.
Variable buffer : list byte.
Variable t_stop : Z.

Hypothesis chunk_pos : 0 < chunk cfg.
Hypothesis stop_at : stopAt cfg = Some t_stop.

(** The [i]-th transmission of a chain, stopped or not, starts [i] chunks
    after the first and is due [i] intervals after it. *)
Lemma chain_index (m : nat) :
  forall (o t : Z) (i : nat) (a : transmission),
    nth_error (chain cfg socket buffer m o t) i = Some a ->
    tx_offset a = o + Z.of_nat i * chunk cfg /\
    tx_time a = t + Z.of_nat i * interval cfg.
Proof.
  induction m as [|m IH]; intros o t i a; cbn [chain];
    [destruct i; discriminate|].
  destruct (Z.ltb_spec o (size buffer)) as [Hlt|Hge]; cbn [andb];
    [|destruct i; discriminate].
  destruct (before_stop _ _); [|destruct i; discriminate].
  destruct i as [|i]; cbn [nth_error].
  - intros [= <-]. cbn. lia.
  - destruct (Z.le_gt_cases (chunk cfg) (size buffer - o)) as [Hfull|Hshort].
    + rewrite Z.min_l by lia. intros H. apply IH in H. lia.
    + rewrite Z.min_r by lia. rewrite chain_done by lia.
      destruct i; discriminate.
Qed.

(** Under a stop time every transmission is due before it. *)
Lemma chain_before (m : nat) :
  forall (o t : Z) (a : transmission),
    In a (chain cfg socket buffer m o t) -> tx_time a < t_stop.
Proof.
  induction m as [|m IH]; intros o t a; cbn [chain]; [intros []|].
  rewrite stop_at. cbn [before_stop].
  destruct (o <? size buffer); cbn [andb]; [|intros []].
  destruct (Z.ltb_spec t t_stop); [|intros []].
  intros [<-|Hin]; [assumption|]. eapply IH; eauto.
Qed.

(** With no stop time, nothing is due before the first step. *)
Lemma chain_not_earlier (m : nat) :
  forall (o t : Z) (a : transmission),
    0 <= interval cfg ->
    In a (chain (unbounded cfg) socket buffer m o t) -> t <= tx_time a.
Proof.
  induction m as [|m IH]; intros o t a Hi; cbn [chain]; [intros []|].
  destruct (_ && _); [|intros []].
  intros [<-|Hin]; [cbn; lia|].
  apply IH in Hin; [|assumption]. cbn [interval unbounded] in Hin. lia.
Qed.

(** The stop time keeps of the chain what is due before it. *)
Lemma chain_filter (m : nat) :
  forall (o t : Z),
    0 <= interval cfg ->
    chain cfg socket buffer m o t
    = filter (fun a => tx_time a <? t_stop)
        (chain (unbounded cfg) socket buffer m o t).
Proof.
  induction m as [|m IH]; intros o t Hi; [reflexivity|].
  cbn [chain unbounded stopAt chunk interval before_stop].
  rewrite stop_at. cbn [before_stop].
  destruct (o <? size buffer) eqn:Ho; cbn [andb]; [|reflexivity].
  destruct (Z.ltb_spec t t_stop) as [Hlt|Hge].
  - cbn [filter tx_time].
    destruct (Z.ltb_spec t t_stop); [|lia].
    f_equal. apply IH. assumption.
  - cbn [filter tx_time].
    destruct (Z.ltb_spec t t_stop); [lia|].
    symmetry. apply filter_none. intros a Ha.
    apply chain_not_earlier in Ha; [|assumption].
    apply Z.ltb_ge. lia.
Qed.

(** When the stop time is [k] intervals after the first step, the stop
    keeps the first [k] transmissions. *)
Lemma chain_prefix (m : nat) :
  forall (k : nat) (o t : Z),
    0 < interval cfg ->
    t_stop = t + Z.of_nat k * interval cfg ->
    chain cfg socket buffer m o t
    = firstn k (chain (unbounded cfg) socket buffer m o t).
Proof.
  induction m as [|m IH]; intros k o t Hi Hk; [now rewrite firstn_nil|].
  cbn [chain unbounded stopAt chunk interval before_stop].
  rewrite stop_at. cbn [before_stop].
  destruct (o <? size buffer) eqn:Ho; cbn [andb]; [|now rewrite firstn_nil].
  destruct k as [|k].
  - destruct (Z.ltb_spec t t_stop); [lia|reflexivity].
  - destruct (Z.ltb_spec t t_stop); [|nia].
    cbn [firstn]. f_equal. apply IH; [assumption|lia].
Qed.

End Cut.

Lemma firstn_plus {A : Type} (n p : nat) :
  forall l : list A, firstn (n + p) l = firstn n l ++ firstn p (skipn n l).
Proof.
  induction n as [|n IH]; intros l; [reflexivity|].
  destruct l as [|x l]; cbn [Nat.add firstn skipn app].
  - now rewrite firstn_nil.
  - f_equal. apply IH.
Qed.

(** The bytes of the first [k] chunks from [o] on are the first [k] chunk
    sizes of bytes of the vector from [o] on. *)
Lemma prefix_payload (cfg : config) (socket : Z -> list byte -> Z)
    (buffer : list byte) (m : nat) :
  0 < chunk cfg ->
  forall (k : nat) (o t : Z),
    0 <= o <= size buffer ->
    size buffer - o <= Z.of_nat m ->
    payload_of (firstn k (chain (unbounded cfg) socket buffer m o t))
    = firstn (k * Z.to_nat (chunk cfg)) (skipn (Z.to_nat o) buffer).
Proof.
  intros Hc.
  assert (Hpos : 0 < chunk (unbounded cfg)) by exact Hc.
  assert (Hns : stopAt (unbounded cfg) = None) by reflexivity.
  assert (Hend : forall o, size buffer <= o -> skipn (Z.to_nat o) buffer = []).
  { intros o Ho. apply skipn_all2. unfold size in Ho. lia. }
  induction m as [|m IH]; intros k o t Ho Hm.
  - cbn [chain]. rewrite firstn_nil, Hend by lia. now rewrite firstn_nil.
  - destruct (Z.ltb_spec o (size buffer)) as [Hlt|Hge].
    + rewrite chain_unfold by assumption.
      destruct k as [|k]; [reflexivity|].
      cbn [firstn]. unfold payload_of in *. cbn [map concat tx_data].
      rewrite IH by lia. cbn [chunk unbounded Nat.mul].
      rewrite firstn_plus.
      destruct (Z.le_gt_cases (chunk cfg) (size buffer - o)) as [Hfull|Hshort].
      * rewrite Z.min_l by lia. unfold slice. f_equal.
        rewrite skipn_skipn. do 2 f_equal. lia.
      * rewrite Z.min_r by lia.
        rewrite (Hend (o + (size buffer - o))) by lia.
        rewrite firstn_nil, app_nil_r.
        assert (Hlen : length (skipn (Z.to_nat o) buffer)
                       = Z.to_nat (size buffer - o)).
        { rewrite length_skipn. unfold size. lia. }
        unfold slice. rewrite <- Hlen, firstn_all.
        rewrite (firstn_all2 (n := Z.to_nat (chunk cfg))) by lia.
        rewrite (skipn_all2 (n := Z.to_nat (chunk cfg))) by lia.
        rewrite firstn_nil, app_nil_r. reflexivity.
    + rewrite chain_done by assumption.
      rewrite firstn_nil, Hend by lia. now rewrite firstn_nil.
Qed.

(** X1: under a stop time the sender hands to the socket exactly those
    chunks of its complete chain that are due before the stop time, and
    nothing at the stop time or after it. *)
Theorem stop_keeps_what_is_due_before
    (cfg : config) (socket : Z -> list byte -> Z) (file : option (list byte))
    (t_stop : Z) :
  0 < chunk cfg < 2 ^ 32 ->
  size (read_file file) < SizeT.modulus ->
  stopAt cfg = Some t_stop ->
  0 <= t_stop ->
  0 <= interval cfg ->
  exists s s',
    simulate (unbounded cfg) socket file = Done s /\
    simulate cfg socket file = Done s' /\
    wire s' = filter (fun a => tx_time a <? t_stop) (wire s) /\
    (forall a, In a (wire s') -> tx_time a < t_stop).
Proof.
  intros Hchunk Hsize Hstop Hpos Hint.
  destruct (simulate_free (unbounded cfg) socket file)
    as (s & HR & Hw & _); try assumption; try reflexivity.
  destruct (simulate_stop cfg socket file Hchunk Hsize t_stop Hstop Hpos)
    as (s' & HR' & Hw').
  exists s, s'. split; [exact HR|]. split; [exact HR'|]. split.
  - rewrite Hw, Hw'. cbn [startDelay unbounded].
    apply chain_filter; assumption.
  - intros a Ha. rewrite Hw' in Ha. eapply chain_before; eauto.
Qed.

Lemma stop_keeps_what_is_due_before_witness :
  0 < chunk emma < 2 ^ 32 /\
  size (read_file (Some scenario2)) < SizeT.modulus /\
  stopAt emma = Some (Seconds 5) /\
  0 <= Seconds 5 /\
  0 <= interval emma /\
  exists s',
    simulate emma socket_up (Some scenario2) = Done s' /\
    forall a, In a (wire s') -> tx_time a < Seconds 5.
Proof.
  assert (Hc : 0 < chunk emma < 2 ^ 32) by (cbn; lia).
  assert (Hs : size (read_file (Some scenario2)) < SizeT.modulus)
    by reflexivity.
  assert (Hp : 0 <= Seconds 5) by (vm_compute; discriminate).
  assert (Hi : 0 <= interval emma) by (vm_compute; discriminate).
  split; [exact Hc|]. split; [exact Hs|]. split; [reflexivity|].
  split; [exact Hp|]. split; [exact Hi|].
  destruct (stop_keeps_what_is_due_before emma socket_up (Some scenario2)
              (Seconds 5) Hc Hs eq_refl Hp Hi) as (s & s' & _ & HR & _ & Hb).
  exists s'. split; [exact HR|exact Hb].
Defined.

(** [main] sends the first 400 chunks of the complete chain. *)
Lemma main_prefix
    (socket : Z -> list byte -> Z) (file : option (list byte)) :
  size (read_file file) < SizeT.modulus ->
  exists s s',
    simulate (unbounded emma) socket file = Done s /\
    main socket file = Exit 0 s' /\
    wire s' = firstn 400 (wire s) /\
    Z.of_nat (length (wire s'))
    = Z.min 400 (ceil_div (size (read_file file)) 1024).
Proof.
  intros Hsize.
  destruct (main_returns socket file Hsize) as (s' & Hmain & Hw').
  destruct (simulate_free (unbounded emma) socket file)
    as (s & HR & Hw & _); try assumption; try reflexivity.
  { cbn. lia. }
  assert (Hcut : wire s' = firstn 400 (wire s)).
  { rewrite Hw, Hw'.
    apply (chain_prefix emma socket (read_file file) (Seconds 5));
      reflexivity. }
  exists s, s'. split; [exact HR|]. split; [exact Hmain|].
  split; [exact Hcut|].
  rewrite Hcut, length_firstn, Nat2Z.inj_min.
  rewrite Hw, chain_count; try reflexivity.
  - unfold ceil_div. cbn [chunk unbounded emma].
    rewrite Z.sub_0_r. reflexivity.
  - pose proof (size_nonneg (read_file file)). lia.
  - unfold size. lia.
Qed.

(** X2: whatever the file and the socket, [main] hands to the socket the
    first 400 chunks of the sender's complete chain, so min(400,
    ceil(L / 1024)) chunks. *)
Theorem main_sends_first_400
    (socket : Z -> list byte -> Z) (file : option (list byte)) :
  size (read_file file) < SizeT.modulus ->
  exists s s',
    simulate (unbounded emma) socket file = Done s /\
    main socket file = Exit 0 s' /\
    wire s' = firstn 400 (wire s) /\
    Z.of_nat (length (wire s'))
    = Z.min 400 (ceil_div (size (read_file file)) 1024).
Proof. exact (main_prefix socket file). Qed.

Lemma main_sends_first_400_witness :
  size (read_file (Some (payload (Z.to_nat 409601)))) < SizeT.modulus /\
  exists s',
    main socket_up (Some (payload (Z.to_nat 409601))) = Exit 0 s' /\
    Z.of_nat (length (wire s')) = 400.
Proof.
  assert (Hs : size (read_file (Some (payload (Z.to_nat 409601))))
               < SizeT.modulus) by (vm_compute; reflexivity).
  split; [exact Hs|].
  destruct (main_sends_first_400 socket_up
              (Some (payload (Z.to_nat 409601))) Hs)
    as (s & s' & _ & Hmain & _ & Hn).
  exists s'. split; [exact Hmain|]. rewrite Hn. vm_compute. reflexivity.
Defined.

(** X3: the bytes [main] hands to the socket, in order, are the first
    409600 bytes of the file: all of it when it is no longer than that. *)
Theorem main_sends_first_bytes
    (socket : Z -> list byte -> Z) (file : option (list byte)) :
  size (read_file file) < SizeT.modulus ->
  payload_of (sent (main socket file))
  = firstn (Z.to_nat 409600) (read_file file).
Proof.
  intros Hsize.
  destruct (main_prefix socket file Hsize)
    as (s & s' & HR & Hmain & Hcut & _).
  destruct (simulate_free (unbounded emma) socket file)
    as (s0 & HR0 & Hw & _); try assumption; try reflexivity.
  { cbn. lia. }
  rewrite HR in HR0. injection HR0 as <-.
  rewrite Hmain. cbn [sent]. rewrite Hcut, Hw.
  rewrite prefix_payload.
  - change (Z.to_nat 0) with 0%nat. cbn [chunk emma skipn].
    replace (400 * Z.to_nat 1024)%nat with (Z.to_nat 409600) by lia.
    reflexivity.
  - reflexivity.
  - pose proof (size_nonneg (read_file file)). lia.
  - unfold size. lia.
Qed.

Lemma main_sends_first_bytes_witness :
  size (read_file (Some scenario2)) < SizeT.modulus /\
  payload_of (sent (main socket_up (Some scenario2))) = scenario2.
Proof.
  assert (Hs : size (read_file (Some scenario2)) < SizeT.modulus)
    by reflexivity.
  split; [exact Hs|].
  rewrite (main_sends_first_bytes socket_up (Some scenario2) Hs).
  apply firstn_all2. cbn [read_file]. unfold scenario2, payload.
  rewrite repeat_length. lia.
Defined.

(** X4: the [i]-th chunk [main] hands to the socket (from 0) is the bytes
    from 1024 i on, at most 1024 of them, at one second plus i times ten
    milliseconds; there is one exactly for i below min(400, ceil(L / 1024)). *)
Theorem main_timetable
    (socket : Z -> list byte -> Z) (file : option (list byte)) (i : nat) :
  size (read_file file) < SizeT.modulus ->
  ((exists a, nth_error (sent (main socket file)) i = Some a) <->
   Z.of_nat i < Z.min 400 (ceil_div (size (read_file file)) 1024)) /\
  (forall a,
     nth_error (sent (main socket file)) i = Some a ->
     tx_offset a = Z.of_nat i * 1024 /\
     tx_time a = Seconds 1 + Z.of_nat i * MilliSeconds 10 /\
     tx_len a = Z.min 1024 (size (read_file file) - Z.of_nat i * 1024) /\
     tx_data a = slice (read_file file) (tx_offset a) (tx_len a) /\
     tx_ret a = socket (tx_time a) (tx_data a)).
Proof.
  intros Hsize.
  destruct (main_prefix socket file Hsize)
    as (s & s' & _ & Hmain & _ & Hn).
  destruct (main_returns socket file Hsize) as (s0 & Hmain0 & Hw).
  rewrite Hmain in Hmain0. injection Hmain0 as <-.
  rewrite Hmain. cbn [sent]. split.
  - rewrite <- Hn. split.
    + intros [a Ha].
      assert (i < length (wire s'))%nat by (apply nth_error_Some; congruence).
      lia.
    + intros Hi. apply nth_error_in_range. lia.
  - intros a Ha.
    assert (Hin : In a (wire s')) by (eapply nth_error_In; eauto).
    rewrite Hw in Ha, Hin.
    apply chain_index in Ha.
    eapply chain_each in Hin; [|reflexivity|lia].
    destruct Ha as [Ho Ht].
    destruct Hin as (_ & Hlen & _ & _ & Hdata & Hret).
    cbn [chunk interval emma] in Ho, Ht, Hlen.
    repeat split; try assumption; lia.
Qed.

Lemma main_timetable_witness :
  size (read_file (Some scenario2)) < SizeT.modulus /\
  nth_error (sent (main socket_up (Some scenario2))) 2
  = Some (Transmission 1020000000 2048 452 (payload 452) 452) /\
  tx_offset (Transmission 1020000000 2048 452 (payload 452) 452)
  = Z.of_nat 2 * 1024.
Proof.
  assert (Hs : size (read_file (Some scenario2)) < SizeT.modulus)
    by reflexivity.
  assert (Ha : nth_error (sent (main socket_up (Some scenario2))) 2
               = Some (Transmission 1020000000 2048 452 (payload 452) 452))
    by (vm_compute; reflexivity).
  split; [exact Hs|]. split; [exact Ha|].
  destruct (main_timetable socket_up (Some scenario2) 2 Hs) as [_ Hrow].
  exact (proj1 (Hrow _ Ha)).
Defined.

Lemma chain_handed (cfg : config) (socket1 socket2 : Z -> list byte -> Z)
    (buffer : list byte) (m : nat) :
  forall (o t : Z),
    map handed (chain cfg socket1 buffer m o t)
    = map handed (chain cfg socket2 buffer m o t).
Proof.
  induction m as [|m IH]; intros o t; cbn [chain]; [reflexivity|].
  destruct (_ && _); [|reflexivity].
  cbn [map]. f_equal. apply IH.
Qed.

(** X5: what [main] hands to the socket, and when, does not depend on what
    the socket answers: two sockets see the same chunks at the same times. *)
Theorem socket_answers_change_nothing
    (socket1 socket2 : Z -> list byte -> Z) (file : option (list byte)) :
  size (read_file file) < SizeT.modulus ->
  map handed (sent (main socket1 file)) = map handed (sent (main socket2 file)).
Proof.
  intros Hsize.
  destruct (main_returns socket1 file Hsize) as (s1 & Hmain1 & Hw1).
  destruct (main_returns socket2 file Hsize) as (s2 & Hmain2 & Hw2).
  rewrite Hmain1, Hmain2. cbn [sent]. rewrite Hw1, Hw2.
  apply chain_handed.
Qed.

Lemma socket_answers_change_nothing_witness :
  size (read_file (Some scenario2)) < SizeT.modulus /\
  map handed (sent (main socket_up (Some scenario2)))
  = map handed (sent (main socket_down (Some scenario2))).
Proof.
  assert (Hs : size (read_file (Some scenario2)) < SizeT.modulus)
    by reflexivity.
  split; [exact Hs|].
  exact (socket_answers_change_nothing socket_up socket_down
           (Some scenario2) Hs).
Defined.

(** ** Where the clock stands when [main] returns *)

Section Ending.

Variable cfg : config.
Variable socket : Z -> list byte -> Z.
Variable buffer : list byte.

Hypothesis chunk_ok : 0 < chunk cfg < 2 ^ 32.
Hypothesis size_ok : size buffer < SizeT.modulus.
Hypothesis interval_nonneg : 0 <= interval cfg.



End Ending.



(** ** The receivers' logs *)

Lemma RecvCallback_lines (id : N) (t : Z) (waiting : list (list byte)) :
  RecvCallback id t waiting = repeat (id, t) (length waiting).
Proof.
  induction waiting as [|p rest IH]; [reflexivity|].
  cbn [RecvCallback length repeat]. now rewrite IH.
Qed.




(** ** When the sender is done *)

Lemma Run_clock (cfg : config) (socket : Z -> list byte -> Z) (fuel : nat) :
  forall (s s' : sim),
    Run cfg socket fuel s = Done s' ->
    s' = s \/
    exists pre t e, trace s' = pre ++ [(t, e)] /\ now s' = t.
Proof.
  induction fuel as [|fuel IH]; intros s s'; cbn [Run].
  - destruct (events s); [intros [= <-]; auto|].
    destruct (stopped s); [intros [= <-]; auto|discriminate].
  - destruct (events s) as [|e rest]; [intros [= <-]; auto|].
    destruct (stopped s); [intros [= <-]; auto|].
    destruct (ProcessOneEvent cfg socket e rest s) as [s1|] eqn:Hp;
      [|discriminate].
    assert (H1 : trace s1 = trace s ++ [(ev_time e, ev_what e)]
                 /\ now s1 = ev_time e).
    { unfold ProcessOneEvent, invoke in Hp.
      destruct (ev_what e) as [file|b o|].
      - injection Hp as <-. auto.
      - unfold Send in Hp. destruct (o <? size b).
        + destruct (Create_Packet b o _); [|discriminate].
          injection Hp as <-. auto.
        + injection Hp as <-. auto.
      - injection Hp as <-. auto. }
    intros HR. right. destruct (IH _ _ HR) as [->|Hlater].
    + destruct H1 as [Ht Hn]. eauto.
    + exact Hlater.
Qed.

Lemma steps_last (cfg : config) (socket : Z -> list byte -> Z)
    (buffer : list byte) (m : nat) :
  0 < chunk cfg ->
  stopAt cfg = None ->
  forall (o t : Z) (d : Z * event),
    0 <= o <= size buffer -> size buffer - o <= Z.of_nat m ->
    last (steps cfg buffer m o t) d
    = (t + Z.of_nat (length (chain cfg socket buffer m o t)) * interval cfg,
       EvSend buffer (size buffer)).
Proof.
  intros Hc Hns.
  induction m as [|m IH]; intros o t d Ho Hm.
  - cbn. do 2 f_equal; lia.
  - cbn [steps].
    destruct (Z.ltb_spec o (size buffer)) as [Hlt|Hge].
    + rewrite chain_unfold by assumption. cbn [length].
      set (l := steps cfg buffer m _ _).
      assert (Hl : last ((t, EvSend buffer o) :: l) d = last l d).
      { destruct l eqn:El; [|reflexivity].
        subst l. destruct m; discriminate. }
      rewrite Hl. unfold l. rewrite IH by lia.
      f_equal. lia.
    + rewrite chain_done by assumption. cbn. do 2 f_equal; lia.
Qed.

(** X8: with no stop time, the last event the sender runs is the [Send]
    that finds the vector exhausted, ceil(L / C) intervals after the start
    delay, and the clock stays there. *)
Theorem sender_done_after
    (cfg : config) (socket : Z -> list byte -> Z) (buffer : list byte) :
  0 < chunk cfg < 2 ^ 32 ->
  size buffer < SizeT.modulus ->
  exists s,
    simulate (unbounded cfg) socket (Some buffer) = Done s /\
    now s = startDelay cfg + ceil_div (size buffer) (chunk cfg) * interval cfg /\
    last (trace s) (0, EvStop) = (now s, EvSend buffer (size buffer)).
Proof.
  intros Hchunk Hsize.
  complete_run cfg socket buffer s.
  assert (Hlast : last (trace s) (0, EvStop)
                  = (startDelay cfg
                     + ceil_div (size buffer) (chunk cfg) * interval cfg,
                     EvSend buffer (size buffer))).
  { rewrite Ht.
    set (l := steps (unbounded cfg) buffer (length buffer) 0 (startDelay cfg)).
    assert (Hl : last ((0, EvStartApplication (Some buffer)) :: l) (0, EvStop)
                 = last l (0, EvStop)).
    { destruct l eqn:El; [|reflexivity].
      subst l. destruct (length buffer); discriminate. }
    rewrite Hl. unfold l.
    rewrite (steps_last (unbounded cfg) socket) by (auto; lia).
    rewrite chain_count by (auto; lia).
    unfold ceil_div. cbn [chunk interval unbounded].
    rewrite Z.sub_0_r. reflexivity. }
  exists s. split; [exact HR|].
  destruct (Run_clock _ _ _ _ _ HR) as [->|(pre & t & e & Hpre & Hnow)].
  - rewrite Ht in *. discriminate.
  - rewrite Hpre, last_app_one in Hlast. injection Hlast as Htime Hwhat.
    rewrite Hnow. split.
    + exact Htime.
    + rewrite Hpre, last_app_one. now rewrite Hwhat.
Qed.

Lemma sender_done_after_witness :
  0 < chunk emma < 2 ^ 32 /\
  size scenario2 < SizeT.modulus /\
  exists s,
    simulate (unbounded emma) socket_up (Some scenario2) = Done s /\
    now s = 1030000000.
Proof.
  assert (Hc : 0 < chunk emma < 2 ^ 32) by (cbn; lia).
  assert (Hs : size scenario2 < SizeT.modulus) by reflexivity.
  split; [exact Hc|]. split; [exact Hs|].
  destruct (sender_done_after emma socket_up scenario2 Hc Hs)
    as (s & HR & Hnow & _).
  exists s. split; [exact HR|]. rewrite Hnow. reflexivity.
Defined.

(** ** The sender does not look at the bytes *)

Lemma chain_layout (cfg : config) (socket1 socket2 : Z -> list byte -> Z)
    (buffer1 buffer2 : list byte) (m : nat) :
  size buffer1 = size buffer2 ->
  forall (o t : Z),
    map (fun a => (tx_time a, tx_offset a, tx_len a))
        (chain cfg socket1 buffer1 m o t)
    = map (fun a => (tx_time a, tx_offset a, tx_len a))
        (chain cfg socket2 buffer2 m o t).
Proof.
  intros Hsame.
  induction m as [|m IH]; intros o t; cbn [chain]; [reflexivity|].
  rewrite Hsame.
  destruct (_ && _); [|reflexivity].
  cbn [map tx_time tx_offset tx_len]. f_equal. apply IH.
Qed.

(** X9: when, from which offset and how many bytes [main] sends depends
    on the length of the file only: two files of the same length give the
    same times, offsets and lengths, whatever they hold. *)
Theorem timetable_depends_on_length_only
    (socket1 socket2 : Z -> list byte -> Z) (file1 file2 : option (list byte)) :
  size (read_file file1) < SizeT.modulus ->
  size (read_file file1) = size (read_file file2) ->
  map (fun a => (tx_time a, tx_offset a, tx_len a)) (sent (main socket1 file1))
  = map (fun a => (tx_time a, tx_offset a, tx_len a)) (sent (main socket2 file2)).
Proof.
  intros Hsize Hsame.
  destruct (main_returns socket1 file1 Hsize) as (s1 & Hmain1 & Hw1).
  destruct (main_returns socket2 file2) as (s2 & Hmain2 & Hw2);
    [now rewrite <- Hsame|].
  rewrite Hmain1, Hmain2. cbn [sent]. rewrite Hw1, Hw2.
  assert (Hlen : length (read_file file1) = length (read_file file2))
    by (unfold size in Hsame; lia).
  rewrite Hlen. now apply chain_layout.
Qed.

Lemma timetable_depends_on_length_only_witness :
  size (read_file (Some scenario2)) < SizeT.modulus /\
  size (read_file (Some scenario2)) = size (read_file (Some (repeat x00 2500))) /\
  map (fun a => (tx_time a, tx_offset a, tx_len a))
      (sent (main socket_up (Some scenario2)))
  = map (fun a => (tx_time a, tx_offset a, tx_len a))
      (sent (main socket_down (Some (repeat x00 2500)))).
Proof.
  assert (Hs : size (read_file (Some scenario2)) < SizeT.modulus)
    by reflexivity.
  assert (He : size (read_file (Some scenario2))
               = size (read_file (Some (repeat x00 2500))))
    by reflexivity.
  split; [exact Hs|]. split; [exact He|].
  exact (timetable_depends_on_length_only socket_up socket_down
           (Some scenario2) (Some (repeat x00 2500)) Hs He).
Defined.
